(** * ts-optional: the [Optional] container and its exception

    A shallow embedding of [src/optional-value.ts] and
    [src/no-such-element.exception.ts].  An [Optional] instance is an object
    on the JavaScript heap with one private field [_value]; its methods are
    state-passing functions over that heap, completing normally or abruptly
    (a [throw]), and recording each call they make to the function they were
    handed. *)

From Stdlib Require Import Floats.PrimFloat.
From stdpp Require Import gmap strings list fin_maps.

(** ** JavaScript values *)

Abbreviation loc := positive.

(** Primitive values are compared by content, objects by address.  Numbers are
    IEEE 754 doubles, as in the language. *)
Inductive JsValue : Type :=
| JUndefined
| JNull
| JBoolean (b : bool)
| JNumber (x : float)
| JString (s : string)
| JObject (l : loc).

(** [a === b] *)
Definition strict_equals (a b : JsValue) : bool :=
  match a, b with
  | JUndefined, JUndefined => true
  | JNull, JNull => true
  | JBoolean x, JBoolean y => Bool.eqb x y
  | JNumber x, JNumber y => PrimFloat.eqb x y
  | JString x, JString y => String.eqb x y
  | JObject x, JObject y => Pos.eqb x y
  | _, _ => false
  end.

(** [a !== b] *)
Definition strict_not_equals (a b : JsValue) : bool := negb (strict_equals a b).

(** [ToBoolean]: the falsy values are [undefined], [null], [false], [0],
    [-0], [NaN] and the empty string. *)
Definition truthy (v : JsValue) : bool :=
  match v with
  | JUndefined | JNull => false
  | JBoolean b => b
  | JNumber x => negb (PrimFloat.eqb x PrimFloat.zero || PrimFloat.is_nan x)
  | JString s => negb (String.eqb s "")
  | JObject _ => true
  end.

(** ** no-such-element.exception.ts *)

(** [class NoSuchElementException extends Error]: [super(message)] stores the
    message when one is given, and the constructor sets [name]. *)
Record NoSuchElementException : Type := {
  message : option string;
  name : string
}.

Definition new_NoSuchElementException (message : option string)
  : NoSuchElementException :=
  {| message := message; name := "NoSuchElementException" |}.

(** What a [throw] carries: an instance of the class above, or anything else
    (only caller-supplied functions throw those). *)
Inductive Thrown : Type :=
| ThrownNoSuchElement (e : NoSuchElementException)
| ThrownOther (v : JsValue).

(** [e instanceof NoSuchElementException] *)
Definition instanceof_NoSuchElementException (e : Thrown) : bool :=
  match e with
  | ThrownNoSuchElement _ => true
  | ThrownOther _ => false
  end.

(** ** Heap, promises and the microtask queue *)

Inductive Settlement : Type :=
| Fulfilled (v : JsValue)
| Rejected (e : Thrown).

(** An activation of [ifPresentAsync] suspended at its [await]; [frame_result]
    is the promise the call returned.  It is the only [await] of the class. *)
Record Frame : Type := { frame_result : loc }.

Inductive PromiseState : Type :=
| Pending (waiters : list Frame)
| Settled (s : Settlement).

(** What lives at an address: an instance of [Optional] with its field, a
    promise, or any other object (an array, say, with its elements). *)
Inductive Object : Type :=
| OptionalObject (_value : JsValue)
| PromiseObject (state : PromiseState)
| HostObject (elements : list JsValue).

Record World : Type := {
  heap : gmap loc Object;
  microtasks : list (Frame * Settlement)
}.

Definition set_heap (h : gmap loc Object) (w : World) : World :=
  {| heap := h; microtasks := microtasks w |}.

Definition enqueue (jobs : list (Frame * Settlement)) (w : World) : World :=
  {| heap := heap w; microtasks := microtasks w ++ jobs |}.

(** ** Completions and the method monad *)

Inductive Completion (A : Type) : Type :=
| Normal (a : A)
| Throw (e : Thrown).
Arguments Normal {A} a.
Arguments Throw {A} e.

(** A caller-supplied function: arbitrary code over the world. *)
Definition Callback : Type := JsValue -> World -> Completion JsValue * World.

(** The outcome of running a method: how it completed, the world it left, and
    the arguments of the calls it made to the function it was given, in
    order. *)
Record Outcome (A : Type) : Type := {
  completion : Completion A;
  final : World;
  calls : list JsValue
}.
Arguments Build_Outcome {A} _ _ _.
Arguments completion {A} _.
Arguments final {A} _.
Arguments calls {A} _.

Definition M (A : Type) : Type := World -> Outcome A.

Definition ret {A} (a : A) : M A :=
  fun w => {| completion := Normal a; final := w; calls := [] |}.

Definition bind {A B} (m : M A) (k : A -> M B) : M B :=
  fun w =>
    let r := m w in
    match completion r with
    | Normal a =>
        let r' := k a (final r) in
        {| completion := completion r'; final := final r';
           calls := calls r ++ calls r' |}
    | Throw e => {| completion := Throw e; final := final r; calls := calls r |}
    end.

Declare Scope js_scope.
Delimit Scope js_scope with js.
Notation "'let!' x := m 'in' k" := (bind m (fun x => k))
  (at level 10, x name, m at level 100, k at level 200) : js_scope.
Notation "m ;; k" := (bind m (fun _ => k))
  (at level 100, k at level 200, right associativity) : js_scope.
Open Scope js_scope.

(** [throw e] *)
Definition throw {A} (e : Thrown) : M A :=
  fun w => {| completion := Throw e; final := w; calls := [] |}.

(** [func(arg)] for a caller-supplied [func] *)
Definition invoke (func : Callback) (arg : JsValue) : M JsValue :=
  fun w =>
    let '(c, w') := func arg w in
    {| completion := c; final := w'; calls := [arg] |}.

(** [this._value]; a property that is not there reads as [undefined]. *)
Definition field_value (w : World) (this : loc) : JsValue :=
  match heap w !! this with
  | Some (OptionalObject v) => v
  | _ => JUndefined
  end.

Definition read_value (this : loc) : M JsValue :=
  fun w => {| completion := Normal (field_value w this); final := w; calls := [] |}.

(** [this._value = value], for [this] an instance *)
Definition write_value (this : loc) (value : JsValue) : M unit :=
  fun w =>
    {| completion := Normal tt;
       final := set_heap (<[this := OptionalObject value]> (heap w)) w;
       calls := [] |}.

(** The address [new] hands out next. *)
Definition fresh_loc (w : World) : loc := fresh (dom (heap w)).

Definition allocate (o : Object) : M loc :=
  fun w =>
    {| completion := Normal (fresh_loc w);
       final := set_heap (<[fresh_loc w := o]> (heap w)) w;
       calls := [] |}.

(** ** Promises and [async] functions

    An [async] function creates its result promise, then runs its body in
    the caller's turn up to the first [await] or to the end.  A body that
    ends settles the result promise at once; a body that awaits parks its
    frame on the awaited value and is resumed from the microtask queue. *)

Definition promise_state (w : World) (p : loc) : option PromiseState :=
  match heap w !! p with
  | Some (PromiseObject st) => Some st
  | _ => None
  end.

(** Settling a pending promise schedules the frames waiting on it; a promise
    settles once. *)
Definition settle_promise (p : loc) (s : Settlement) (w : World) : World :=
  match promise_state w p with
  | Some (Pending waiters) =>
      enqueue (map (fun fr => (fr, s)) waiters)
              (set_heap (<[p := PromiseObject (Settled s)]> (heap w)) w)
  | _ => w
  end.

(** [await awaited], reached by frame [fr]: a pending promise gets the frame
    as a waiter; a settled promise, or a value that is no promise, schedules
    the frame directly. *)
Definition suspend_on (awaited : JsValue) (fr : Frame) (w : World) : World :=
  match awaited with
  | JObject q =>
      match promise_state w q with
      | Some (Pending waiters) =>
          set_heap (<[q := PromiseObject (Pending (waiters ++ [fr]))]> (heap w)) w
      | Some (Settled s) => enqueue [(fr, s)] w
      | None => enqueue [(fr, Fulfilled awaited)] w
      end
  | _ => enqueue [(fr, Fulfilled awaited)] w
  end.

(** How far the body of an [async] function got in the caller's turn. *)
Inductive BodyStep : Type :=
| Returned
| Awaiting (awaited : JsValue).

Definition async (body : M BodyStep) : M JsValue :=
  fun w =>
    let p := fresh_loc w in
    let r := body (set_heap (<[p := PromiseObject (Pending [])]> (heap w)) w) in
    {| completion := Normal (JObject p);
       final :=
         match completion r with
         | Normal Returned => settle_promise p (Fulfilled JUndefined) (final r)
         | Normal (Awaiting awaited) =>
             suspend_on awaited {| frame_result := p |} (final r)
         | Throw e => settle_promise p (Rejected e) (final r)
         end;
       calls := calls r |}.

(** What is left of [ifPresentAsync] after its [await]: if the awaited value
    was fulfilled, the block and the function end and the call returns
    [undefined]; if it was rejected, [await] throws and nothing catches it. *)
Definition after_await (s : Settlement) : Settlement :=
  match s with
  | Fulfilled _ => Fulfilled JUndefined
  | Rejected e => Rejected e
  end.

Definition run_job (job : Frame * Settlement) (w : World) : World :=
  settle_promise (frame_result (fst job)) (after_await (snd job)) w.

(** One turn of the microtask queue, oldest job first. *)
Definition run_microtask (w : World) : World :=
  match microtasks w with
  | [] => w
  | job :: rest => run_job job {| heap := heap w; microtasks := rest |}
  end.

Fixpoint run_microtasks (n : nat) (w : World) : World :=
  match n with
  | O => w
  | S n' => run_microtasks n' (run_microtask w)
  end.

(** ** optional-value.ts *)

Module Optional.

(** [constructor(value: T) { this._value = value; return this; }] *)
Definition new (value : JsValue) : M loc :=
  let! this := allocate (OptionalObject JUndefined) in
  write_value this value;;
  ret this.

(** [static of<T>(value: T) { return new Optional(value); }]  ([of] is
    reserved, hence the underscore.) *)
Definition of_ (value : JsValue) : M loc := new value.

(** [return this._value !== null && this._value !== undefined;] *)
Definition isPresent (this : loc) : M bool :=
  let! a := read_value this in
  if strict_not_equals a JNull
  then let! b := read_value this in ret (strict_not_equals b JUndefined)
  else ret false.

(** [return !this.isPresent();] *)
Definition isEmpty (this : loc) : M bool :=
  let! p := isPresent this in
  ret (negb p).

(** [if (!this.isPresent()) { throw new NoSuchElementException(); }
     return this._value;] *)
Definition get (this : loc) : M JsValue :=
  let! p := isPresent this in
  (if negb p
   then throw (ThrownNoSuchElement (new_NoSuchElementException None))
   else ret tt);;
  read_value this.

(** [if (this.isEmpty()) { this._value = value; } return this;] *)
Definition orElse (this : loc) (value : JsValue) : M loc :=
  let! e := isEmpty this in
  (if e then write_value this value else ret tt);;
  ret this.

(** [if (this.isPresent()) { func(this._value); }] *)
Definition ifPresent (this : loc) (func : Callback) : M JsValue :=
  let! p := isPresent this in
  (if p
   then let! v := read_value this in invoke func v;; ret tt
   else ret tt);;
  ret JUndefined.

(** [return this.isPresent() && predicate(this._value);] *)
Definition isPresentAnd (this : loc) (predicate : Callback) : M JsValue :=
  let! p := isPresent this in
  if p
  then let! v := read_value this in invoke predicate v
  else ret (JBoolean p).

(** [async ifPresentAsync(func) { if (this.isPresent()) { await func(this._value); } }] *)
Definition ifPresentAsync_body (this : loc) (func : Callback) : M BodyStep :=
  let! p := isPresent this in
  if p
  then let! v := read_value this in
       let! awaited := invoke func v in
       ret (Awaiting awaited)
  else ret Returned.

Definition ifPresentAsync (this : loc) (func : Callback) : M JsValue :=
  async (ifPresentAsync_body this func).

End Optional.

(** ** Callers: method calls as data, and scripts of them *)

Import Optional.

(** A value is absent when it is [null] or [undefined]. *)
Definition nullish (v : JsValue) : bool :=
  match v with
  | JUndefined | JNull => true
  | _ => false
  end.

(** [n] calls of [m] in a row, results in order. *)
Fixpoint repeatedly {A} (n : nat) (m : M A) : M (list A) :=
  match n with
  | O => ret []
  | S n' => let! a := m in let! rest := repeatedly n' m in ret (a :: rest)
  end.

(** The methods of an instance, as a caller names them. *)
Inductive Op : Type :=
| OpGet
| OpIsPresent
| OpIsEmpty
| OpOrElse (value : JsValue)
| OpIfPresent (func : Callback)
| OpIsPresentAnd (predicate : Callback)
| OpIfPresentAsync (func : Callback).

(** [this.op(...)] *)
Definition call_method (this : loc) (op : Op) : M JsValue :=
  match op with
  | OpGet => get this
  | OpIsPresent => let! b := isPresent this in ret (JBoolean b)
  | OpIsEmpty => let! b := isEmpty this in ret (JBoolean b)
  | OpOrElse value => let! o := orElse this value in ret (JObject o)
  | OpIfPresent func => ifPresent this func
  | OpIsPresentAnd predicate => isPresentAnd this predicate
  | OpIfPresentAsync func => ifPresentAsync this func
  end.

Definition supplied_function (op : Op) : option Callback :=
  match op with
  | OpIfPresent func | OpIsPresentAnd func | OpIfPresentAsync func => Some func
  | _ => None
  end.

(** What happens in one step: the caller builds an instance or calls a method
    of one (catching whatever it throws), the next microtask runs, or the host
    settles a promise (a timer fires, a response arrives). *)
Inductive Step : Type :=
| Construct (value : JsValue)
| Call (this : loc) (op : Op)
| Microtask
| Settle (q : loc) (s : Settlement).

Definition run_step (st : Step) (w : World) : World :=
  match st with
  | Construct value => final (of_ value w)
  | Call this op => final (call_method this op w)
  | Microtask => run_microtask w
  | Settle q s => settle_promise q s w
  end.

Fixpoint run_script (script : list Step) (w : World) : World :=
  match script with
  | [] => w
  | st :: rest => run_script rest (run_step st w)
  end.

(** The value an address holds as an [Optional], if it is one. *)
Definition stored (w : World) (o : loc) : option JsValue :=
  match heap w !! o with
  | Some (OptionalObject v) => Some v
  | _ => None
  end.

(** [_value] is private: a caller-supplied function reaches an instance only
    through its methods, so whatever it does, an instance that holds a
    present value still holds that value afterwards. *)
Definition respects_privacy (func : Callback) : Prop :=
  forall arg w o v,
    stored w o = Some v -> nullish v = false ->
    stored (snd (func arg w)) o = Some v.

Definition step_respects_privacy (st : Step) : Prop :=
  match st with
  | Call _ op =>
      match supplied_function op with
      | Some func => respects_privacy func
      | None => True
      end
  | _ => True
  end.

(** ** Following an [await] *)

(** How an awaited value has come out so far: a pending promise has not; a
    settled promise has, with its settlement; anything else counts as
    fulfilled with itself. *)
Definition awaited_settlement (w : World) (awaited : JsValue) : option Settlement :=
  match awaited with
  | JObject q =>
      match promise_state w q with
      | Some (Pending _) => None
      | Some (Settled s) => Some s
      | None => Some (Fulfilled awaited)
      end
  | _ => Some (Fulfilled awaited)
  end.

(** No frame in [w], queued or waiting, is set to settle [p]. *)
Definition frames_avoid (p : loc) (w : World) : Prop :=
  (forall job, job ∈ microtasks w -> frame_result (fst job) <> p) /\
  (forall q waiters fr,
      promise_state w q = Some (Pending waiters) -> fr ∈ waiters ->
      frame_result fr <> p).

(** The promise an [async] call returns is first seen by its caller.  A
    function called in the body has no reference to it: it completes with [c]
    in a world [w1] where [p] is as it was created, nothing is set to settle
    it, and [c] is not [p] itself. *)
Definition unaware_of (p : loc) (c : Completion JsValue) (w1 : World) : Prop :=
  promise_state w1 p = Some (Pending []) /\
  frames_avoid p w1 /\
  c <> Normal (JObject p).

(** The steps that can follow on their own once [ifPresentAsync] has
    returned [p]: microtask turns, and the host settling promises.  The host
    cannot settle [p], whose resolving functions never leave the call. *)
Definition host_step (p : loc) (st : Step) : Prop :=
  match st with
  | Microtask => True
  | Settle q _ => q <> p
  | _ => False
  end.

(** The result promise [p] of a call that awaits [awaited] follows it: while
    [p] is pending, a queued resumption of its frame carries the settlement
    of [awaited], and its frame waits on no promise but [awaited]; once [p]
    is settled, [awaited] is, and [p] came out as the rest of the body maps
    it. *)
Definition follows (p : loc) (awaited : JsValue) (w : World) : Prop :=
  match promise_state w p with
  | Some (Pending _) =>
      (forall job, job ∈ microtasks w -> frame_result (fst job) = p ->
                   awaited_settlement w awaited = Some (snd job)) /\
      (forall q waiters fr,
          promise_state w q = Some (Pending waiters) -> fr ∈ waiters ->
          frame_result fr = p -> awaited = JObject q)
  | Some (Settled sp) =>
      exists s, awaited_settlement w awaited = Some s /\ sp = after_await s
  | None => True
  end.

(** ** Sample callers, after the test suite *)

Definition empty_world : World := {| heap := ∅; microtasks := [] |}.

(** A world with the array [['blue', 'green']] at address 1 and an empty
    console log at address 2. *)
Definition colors : loc := 1%positive.
Definition console : loc := 2%positive.
Definition colors_world : World :=
  {| heap := {[ colors := HostObject [JString "blue"; JString "green"];
                console := HostObject [] ]};
     microtasks := [] |}.

(** [const first = Optional.of(value)] in the empty world: the instance and
    the world it lives in. *)
Definition first : loc := fresh_loc empty_world.
Definition holding (value : JsValue) : World := final (of_ value empty_world).

(** [const colorList = Optional.of(['blue', 'green'])] *)
Definition colorList : loc := fresh_loc colors_world.
Definition colorList_world : World := final (of_ (JObject colors) colors_world).

(** [(value) => { value.forEach((color) => console.log(color)); }] *)
Definition log_each : Callback :=
  fun value w =>
    match value with
    | JObject a =>
        match heap w !! a, heap w !! console with
        | Some (HostObject xs), Some (HostObject out) =>
            (Normal JUndefined,
             set_heap (<[console := HostObject (out ++ xs)]> (heap w)) w)
        | _, _ => (Throw (ThrownOther (JString "TypeError")), w)
        end
    | _ => (Throw (ThrownOther (JString "TypeError")), w)
    end.

(** [(value) => value > 5] *)
Definition greater_than_five : Callback :=
  fun value w =>
    match value with
    | JNumber x => (Normal (JBoolean (PrimFloat.ltb 5 x)), w)
    | _ => (Normal (JBoolean false), w)
    end.

(** [function isStringValue(value) { return typeof value === "string"; }] *)
Definition isStringValue : Callback :=
  fun value w =>
    (Normal (JBoolean match value with JString _ => true | _ => false end), w).

(** [function isNumberValue(value) { return typeof value === "number"; }] *)
Definition isNumberValue : Callback :=
  fun value w =>
    (Normal (JBoolean match value with JNumber _ => true | _ => false end), w).

(** [(value) => new Promise(...)], left for the host to settle *)
Definition defer : Callback :=
  fun value w =>
    (Normal (JObject (fresh_loc w)),
     final (allocate (PromiseObject (Pending [])) w)).

(** [(value) => { throw value; }] *)
Definition rethrow : Callback :=
  fun value w => (Throw (ThrownOther value), w).

(** [(value) => value] *)
Definition returns_argument : Callback :=
  fun value w => (Normal value, w).



(** A caller that tries every method on [colorList]. *)
Definition busy_script : list Step :=
  [ Call colorList (OpOrElse JNull); Call colorList (OpIfPresent log_each);
    Call colorList OpGet; Call colorList (OpIfPresentAsync log_each); Microtask;
    Construct JUndefined; Call colorList (OpOrElse (JNumber 0));
    Call colorList (OpIsPresentAnd log_each); Call colorList OpIsEmpty ].

(** * Properties *)

(** ** Running each method *)

Lemma nullish_spec v : nullish v = false <-> v <> JNull /\ v <> JUndefined.
Proof. destruct v; simpl; split; intros H; try done; try (by destruct H); by split. Qed.

Lemma of_run value w :
  of_ value w =
  {| completion := Normal (fresh_loc w);
     final := set_heap (<[fresh_loc w := OptionalObject value]> (heap w)) w;
     calls := [] |}.
Proof.
  unfold of_, new, bind, allocate, write_value, ret, set_heap; simpl.
  by rewrite insert_insert_eq.
Qed.

Lemma field_value_of value w :
  field_value (final (of_ value w)) (fresh_loc w) = value.
Proof. rewrite of_run. unfold field_value; simpl. by rewrite lookup_insert_eq. Qed.

Lemma isPresent_run this w :
  isPresent this w =
  {| completion := Normal (negb (nullish (field_value w this)));
     final := w; calls := [] |}.
Proof.
  unfold isPresent, bind, read_value, ret; simpl.
  destruct (field_value w this) eqn:E; simpl; by rewrite ?E.
Qed.

Lemma isEmpty_run this w :
  isEmpty this w =
  {| completion := Normal (nullish (field_value w this));
     final := w; calls := [] |}.
Proof.
  unfold isEmpty, bind. rewrite isPresent_run; simpl.
  by rewrite negb_involutive.
Qed.

Lemma get_run this w :
  get this w =
  {| completion :=
       if nullish (field_value w this)
       then Throw (ThrownNoSuchElement (new_NoSuchElementException None))
       else Normal (field_value w this);
     final := w; calls := [] |}.
Proof.
  unfold get, bind. rewrite isPresent_run; simpl.
  by destruct (nullish (field_value w this)).
Qed.

Lemma orElse_run this value w :
  orElse this value w =
  {| completion := Normal this;
     final := if nullish (field_value w this)
              then set_heap (<[this := OptionalObject value]> (heap w)) w
              else w;
     calls := [] |}.
Proof.
  unfold orElse, bind. rewrite isEmpty_run; simpl.
  by destruct (nullish (field_value w this)).
Qed.

Lemma ifPresent_run this func w :
  ifPresent this func w =
  if nullish (field_value w this)
  then {| completion := Normal JUndefined; final := w; calls := [] |}
  else {| completion := match fst (func (field_value w this) w) with
                        | Normal _ => Normal JUndefined
                        | Throw e => Throw e
                        end;
          final := snd (func (field_value w this) w);
          calls := [field_value w this] |}.
Proof.
  unfold ifPresent, bind. rewrite isPresent_run; simpl.
  destruct (nullish (field_value w this)); simpl; [done|].
  unfold invoke. by destruct (func _ w) as [[r|e] w1].
Qed.

Lemma isPresentAnd_run this predicate w :
  isPresentAnd this predicate w =
  if nullish (field_value w this)
  then {| completion := Normal (JBoolean false); final := w; calls := [] |}
  else {| completion := fst (predicate (field_value w this) w);
          final := snd (predicate (field_value w this) w);
          calls := [field_value w this] |}.
Proof.
  unfold isPresentAnd, bind. rewrite isPresent_run; simpl.
  destruct (nullish (field_value w this)); simpl; [done|].
  unfold invoke. by destruct (predicate _ w) as [[r|e] w1].
Qed.

Lemma fresh_loc_unused w : heap w !! fresh_loc w = None.
Proof. unfold fresh_loc. apply not_elem_of_dom. apply is_fresh. Qed.

Lemma ifPresentAsync_run this func w :
  let p := fresh_loc w in
  let wp := set_heap (<[p := PromiseObject (Pending [])]> (heap w)) w in
  ifPresentAsync this func w =
  if nullish (field_value w this)
  then {| completion := Normal (JObject p);
          final := set_heap
                     (<[p := PromiseObject (Settled (Fulfilled JUndefined))]> (heap w)) w;
          calls := [] |}
  else {| completion := Normal (JObject p);
          final := match fst (func (field_value w this) wp) with
                   | Normal awaited =>
                       suspend_on awaited {| frame_result := p |}
                                  (snd (func (field_value w this) wp))
                   | Throw e =>
                       settle_promise p (Rejected e)
                                      (snd (func (field_value w this) wp))
                   end;
          calls := [field_value w this] |}.
Proof.
  intros p wp.
  assert (Hf : field_value wp this = field_value w this).
  { unfold field_value, wp; simpl. destruct (decide (this = p)) as [->|Hne].
    - rewrite lookup_insert_eq. unfold p. by rewrite fresh_loc_unused.
    - by rewrite lookup_insert_ne. }
  unfold ifPresentAsync, async, ifPresentAsync_body, bind.
  fold p. fold wp. rewrite isPresent_run, Hf; simpl.
  destruct (nullish (field_value w this)); simpl.
  - f_equal. unfold settle_promise, promise_state, wp, set_heap, enqueue; simpl.
    rewrite lookup_insert_eq; simpl. by rewrite insert_insert_eq, app_nil_r.
  - rewrite Hf. unfold invoke.
    by destruct (func (field_value w this) wp) as [[r|e] w1].
Qed.

Lemma of_then {A} value (k : loc -> M A) w :
  (let! o := of_ value in k o) w = k (fresh_loc w) (final (of_ value w)).
Proof. unfold bind. rewrite of_run; simpl. by destruct (k _ _). Qed.

Lemma orElse_then {A} this value (k : loc -> M A) w :
  (let! o := orElse this value in k o) w = k this (final (orElse this value w)).
Proof. unfold bind. rewrite orElse_run; simpl. by destruct (k _ _). Qed.

Lemma orElse_final_empty this value w :
  nullish (field_value w this) = true ->
  final (orElse this value w) = set_heap (<[this := OptionalObject value]> (heap w)) w.
Proof. intros H. by rewrite orElse_run, H. Qed.

Lemma orElse_final_present this value w :
  nullish (field_value w this) = false -> final (orElse this value w) = w.
Proof. intros H. by rewrite orElse_run, H. Qed.

Lemma field_value_written this value w :
  field_value (set_heap (<[this := OptionalObject value]> (heap w)) w) this = value.
Proof. unfold field_value; simpl. by rewrite lookup_insert_eq. Qed.

(** ** The test suite *)

Example get_returns_the_value :
  completion (get first (holding (JString "test"))) = Normal (JString "test").
Proof. reflexivity. Qed.

Example get_throws_on_null :
  completion (get first (holding JNull))
  = Throw (ThrownNoSuchElement (new_NoSuchElementException None)).
Proof. reflexivity. Qed.

Example get_throws_on_undefined :
  completion (get first (holding JUndefined))
  = Throw (ThrownNoSuchElement (new_NoSuchElementException None)).
Proof. reflexivity. Qed.

Example orElse_returns_the_else_value :
  completion ((let! value := orElse first (JString "else value") in get value)
                (holding JNull))
  = Normal (JString "else value").
Proof. reflexivity. Qed.

Example ifPresent_calls_the_function :
  heap (final (ifPresent colorList log_each colorList_world)) !! console
  = Some (HostObject [JString "blue"; JString "green"]).
Proof. reflexivity. Qed.

Example ifPresent_does_not_call_the_function :
  let w := final (of_ JNull colors_world) in
  calls (ifPresent colorList log_each w) = [] /\
  heap (final (ifPresent colorList log_each w)) !! console = Some (HostObject []).
Proof. split; reflexivity. Qed.

Example isPresent_of_a_string :
  completion (isPresent first (holding (JString "test"))) = Normal true.
Proof. reflexivity. Qed.

Example isEmpty_of_null_and_undefined :
  completion (isEmpty first (holding JNull)) = Normal true /\
  completion (isEmpty first (holding JUndefined)) = Normal true.
Proof. split; reflexivity. Qed.

Example isPresentAnd_cases :
  completion (isPresentAnd first isStringValue (holding (JString "a string")))
  = Normal (JBoolean true) /\
  completion (isPresentAnd first isNumberValue (holding (JNumber 2)))
  = Normal (JBoolean true) /\
  completion (isPresentAnd first isStringValue (holding (JBoolean true)))
  = Normal (JBoolean false) /\
  completion (isPresentAnd first greater_than_five (holding (JNumber 6)))
  = Normal (JBoolean true).
Proof. repeat split; reflexivity. Qed.

(** A deferred action: the promise of [ifPresentAsync] stays pending through
    microtask turns, and is rejected one turn after the action's promise
    is. *)
Example ifPresentAsync_follows_a_deferred_action :
  let r := ifPresentAsync first defer (holding (JNumber 3)) in
  let boom := Rejected (ThrownOther (JString "boom")) in
  promise_state (run_script [Microtask; Microtask] (final r)) 2%positive
  = Some (Pending []) /\
  promise_state (run_script [Microtask; Settle 3%positive boom] (final r)) 2%positive
  = Some (Pending []) /\
  promise_state (run_script [Settle 3%positive boom; Microtask] (final r)) 2%positive
  = Some (Settled boom).
Proof. repeat split; reflexivity. Qed.

(** ** Presence *)

(** C1: [isPresent()] answers [true] exactly when the stored value is neither
    [null] nor [undefined], whatever else it is, and leaves the world as it
    found it without calling anything; so the falsy values [0], [""] and
    [false] are present. *)
Theorem isPresent_iff_neither_null_nor_undefined :
  forall w,
    (forall this, exists b,
        isPresent this w = {| completion := Normal b; final := w; calls := [] |} /\
        (b = true <-> field_value w this <> JNull /\ field_value w this <> JUndefined))
    /\ (forall v,
          completion ((let! o := of_ v in isPresent o) w) = Normal true <->
          v <> JNull /\ v <> JUndefined)
    /\ truthy (JNumber 0) = false
    /\ completion ((let! o := of_ (JNumber 0) in isPresent o) w) = Normal true
    /\ truthy (JString "") = false
    /\ completion ((let! o := of_ (JString "") in isPresent o) w) = Normal true
    /\ truthy (JBoolean false) = false
    /\ completion ((let! o := of_ (JBoolean false) in isPresent o) w) = Normal true.
Proof.
  intros w.
  assert (Hof : forall v,
             completion ((let! o := of_ v in isPresent o) w)
             = Normal (negb (nullish v))).
  { intros v. by rewrite of_then, isPresent_run, field_value_of. }
  split; [|split].
  - intros this. exists (negb (nullish (field_value w this))).
    split; [apply isPresent_run|].
    rewrite negb_true_iff. apply nullish_spec.
  - intros v. rewrite Hof, <- nullish_spec.
    split; [intros [= H%negb_true_iff]; exact H | intros ->; reflexivity].
  - rewrite !Hof. repeat split; reflexivity.
Qed.

(** C9: [isEmpty()] is the negation of [isPresent()] in every state, neither
    changes the world nor calls anything, and any number of calls in a row
    gives the same answer every time. *)
Theorem isEmpty_negates_isPresent :
  forall this w, exists b,
    isPresent this w = {| completion := Normal b; final := w; calls := [] |} /\
    isEmpty this w = {| completion := Normal (negb b); final := w; calls := [] |} /\
    (forall n,
        repeatedly n (isPresent this) w =
        {| completion := Normal (replicate n b); final := w; calls := [] |}) /\
    (forall n,
        repeatedly n (isEmpty this) w =
        {| completion := Normal (replicate n (negb b)); final := w; calls := [] |}).
Proof.
  intros this w. exists (negb (nullish (field_value w this))).
  split; [apply isPresent_run|].
  split; [by rewrite isEmpty_run, negb_involutive|].
  split; intros n; induction n as [|n IH]; try reflexivity; simpl.
  - unfold bind in *. rewrite isPresent_run; simpl. by rewrite IH.
  - unfold bind in *. rewrite isEmpty_run; simpl. rewrite IH; simpl.
    by rewrite negb_involutive.
Qed.

(** ** Unwrapping *)

(** C5: for a present [v], [of(v).get()] returns [v] itself, object
    references included ([NaN] too, which [===] would not equate with
    itself): the only change to the heap is the new container, which holds
    [v] as given, and every object that was there is as it was. *)
Theorem of_get_round_trip v w :
  v <> JNull -> v <> JUndefined ->
  let r := (let! o := of_ v in get o) w in
  completion r = Normal v /\
  calls r = [] /\
  heap (final r) = <[fresh_loc w := OptionalObject v]> (heap w) /\
  microtasks (final r) = microtasks w /\
  (forall l, l ∈ dom (heap w) -> heap (final r) !! l = heap w !! l).
Proof.
  intros Hnull Hundef r.
  assert (Hv : nullish v = false) by by apply nullish_spec.
  unfold r. rewrite of_then, get_run, field_value_of, Hv, of_run; simpl.
  repeat split.
  intros l Hl. rewrite lookup_insert_ne; [done|].
  intros <-. apply elem_of_dom in Hl as [x Hx].
  by rewrite fresh_loc_unused in Hx.
Qed.

Lemma of_get_round_trip_witness :
  completion ((let! o := of_ (JObject colors) in get o) colors_world)
  = Normal (JObject colors)
  /\ heap (final ((let! o := of_ (JObject colors) in get o) colors_world)) !! colors
     = Some (HostObject [JString "blue"; JString "green"]).
Proof.
  destruct (of_get_round_trip (JObject colors) colors_world) as (Hc & _ & _ & _ & Hh);
    [discriminate | discriminate |].
  split; [exact Hc|].
  rewrite Hh; [reflexivity|]. vm_compute. reflexivity.
Defined.

(** ** Default substitution *)

(** C3: [orElse(defaultValue)] returns the instance it was called on.  Called
    on an empty instance it first stores [defaultValue] in that instance;
    called on a present one it changes nothing.  Hence
    [of(null).orElse(X).get()] is [X] for a present [X] (also through the
    original reference), and [of(Y).orElse(X).get()] is [Y] for a present
    [Y]. *)
Theorem orElse_substitutes_in_place :
  (forall this d w,
      let r := orElse this d w in
      completion r = Normal this /\ calls r = [] /\
      (nullish (field_value w this) = true ->
       final r = set_heap (<[this := OptionalObject d]> (heap w)) w /\
       field_value (final r) this = d) /\
      (nullish (field_value w this) = false -> final r = w))
  /\ (forall X w,
         nullish X = false ->
         completion ((let! o := of_ JNull in let! o' := orElse o X in get o') w)
         = Normal X /\
         completion ((let! o := of_ JUndefined in let! o' := orElse o X in get o') w)
         = Normal X /\
         completion ((let! o := of_ JNull in orElse o X;; get o) w) = Normal X)
  /\ (forall X Y w,
         nullish Y = false ->
         completion ((let! o := of_ Y in let! o' := orElse o X in get o') w)
         = Normal Y).
Proof.
  split; [|split].
  - intros this d w r. unfold r. rewrite orElse_run; simpl.
    split; [reflexivity|]. split; [reflexivity|].
    split; intros ->; [|reflexivity].
    split; [reflexivity | apply field_value_written].
  - intros X w HX.
    assert (Hchain : forall a, nullish a = true ->
              completion ((let! o := of_ a in let! o' := orElse o X in get o') w)
              = Normal X).
    { intros a Ha. rewrite of_then, orElse_then, get_run.
      rewrite orElse_final_empty by by rewrite field_value_of.
      by rewrite field_value_written, HX. }
    split; [by apply Hchain|]. split; [by apply Hchain|].
    rewrite of_then. unfold bind.
    rewrite get_run, orElse_final_empty by by rewrite field_value_of.
    by rewrite orElse_run, field_value_written, HX.
  - intros X Y w HY. rewrite of_then, orElse_then, get_run.
    rewrite orElse_final_present by by rewrite field_value_of.
    by rewrite field_value_of, HY.
Qed.

Lemma orElse_substitutes_in_place_witness :
  completion ((let! o := of_ JNull in
               let! o' := orElse o (JString "else value") in get o') empty_world)
  = Normal (JString "else value")
  /\ completion ((let! o := of_ (JNumber 5) in
                  let! o' := orElse o (JNumber 6) in get o') empty_world)
     = Normal (JNumber 5).
Proof.
  destruct orElse_substitutes_in_place as (_ & Hempty & Hpresent).
  split.
  - apply (Hempty (JString "else value") empty_world). reflexivity.
  - apply (Hpresent (JNumber 6) (JNumber 5) empty_world). reflexivity.
Defined.

(** C10: [orElse] does not look at its argument.  Called on an empty instance
    with [null] or [undefined], it stores that, the instance it returns is
    still empty, and [get()] on it throws [NoSuchElementException]. *)
Theorem orElse_absent_default_stays_empty this d w :
  nullish (field_value w this) = true -> nullish d = true ->
  let r := orElse this d w in
  completion r = Normal this /\
  field_value (final r) this = d /\
  completion (isPresent this (final r)) = Normal false /\
  completion (isEmpty this (final r)) = Normal true /\
  completion (get this (final r))
  = Throw (ThrownNoSuchElement (new_NoSuchElementException None)).
Proof.
  intros Hempty Hd r. unfold r.
  rewrite isPresent_run, isEmpty_run, get_run, orElse_final_empty by done.
  by rewrite orElse_run, field_value_written, Hd.
Qed.

Lemma orElse_absent_default_stays_empty_witness :
  completion (get first (final (orElse first JUndefined (holding JNull))))
  = Throw (ThrownNoSuchElement (new_NoSuchElementException None)).
Proof.
  apply (orElse_absent_default_stays_empty first JUndefined (holding JNull));
    reflexivity.
Defined.

(** ** Conditional execution *)

(** C6: on a present instance [ifPresent(action)] calls [action] once, with
    the stored value, before it returns, and whatever [action] throws comes
    out of [ifPresent] as it is; on an empty instance it calls nothing,
    changes nothing and returns normally. *)
Theorem ifPresent_calls_once_iff_present this func w :
  let v := field_value w this in
  let r := ifPresent this func w in
  (nullish v = true ->
   r = {| completion := Normal JUndefined; final := w; calls := [] |})
  /\ (nullish v = false ->
      calls r = [v] /\
      final r = snd (func v w) /\
      (forall e, fst (func v w) = Throw e -> completion r = Throw e) /\
      (forall x, fst (func v w) = Normal x -> completion r = Normal JUndefined)).
Proof.
  intros v r. unfold r, v. rewrite ifPresent_run.
  split; intros ->; [reflexivity|]; simpl.
  repeat split; intros ? ->; reflexivity.
Qed.

Lemma ifPresent_calls_once_iff_present_witness :
  calls (ifPresent colorList log_each colorList_world) = [JObject colors]
  /\ heap (final (ifPresent colorList log_each colorList_world)) !! console
     = Some (HostObject [JString "blue"; JString "green"])
  /\ completion (ifPresent colorList rethrow colorList_world)
     = Throw (ThrownOther (JObject colors))
  /\ ifPresent first log_each (holding JNull)
     = {| completion := Normal JUndefined; final := holding JNull; calls := [] |}.
Proof.
  destruct (ifPresent_calls_once_iff_present colorList log_each colorList_world)
    as [_ Hpresent].
  destruct Hpresent as (Hcalls & Hfinal & _); [reflexivity|].
  destruct (ifPresent_calls_once_iff_present colorList rethrow colorList_world)
    as [_ Hthrow].
  destruct Hthrow as (_ & _ & Hprop & _); [reflexivity|].
  destruct (ifPresent_calls_once_iff_present first log_each (holding JNull))
    as [Hempty _].
  split; [exact Hcalls|]. split; [by rewrite Hfinal|].
  split; [by apply Hprop | by apply Hempty].
Defined.

(** C7: [isPresentAnd(predicate)] returns [true] exactly when the instance is
    present and [predicate], called on the stored value, returns [true].  On
    an empty instance it returns [false] without calling [predicate]; on a
    present one it calls [predicate] once and completes the way that call
    does, so a [throw] of [predicate] comes out as it is. *)
Theorem isPresentAnd_true_iff_present_and_predicate this predicate w :
  let v := field_value w this in
  let r := isPresentAnd this predicate w in
  (completion r = Normal (JBoolean true) <->
   nullish v = false /\ fst (predicate v w) = Normal (JBoolean true))
  /\ (nullish v = true ->
      r = {| completion := Normal (JBoolean false); final := w; calls := [] |})
  /\ (nullish v = false ->
      calls r = [v] /\
      completion r = fst (predicate v w) /\
      final r = snd (predicate v w)).
Proof.
  intros v r. unfold r, v. rewrite isPresentAnd_run.
  destruct (nullish (field_value w this)); simpl.
  - split; [|by split]. split; [discriminate | by intros [? _]].
  - split; [|by split]. split; [by split | by intros [_ ?]].
Qed.

Lemma isPresentAnd_true_iff_present_and_predicate_witness :
  completion (isPresentAnd first greater_than_five (holding (JNumber 6)))
  = Normal (JBoolean true)
  /\ isPresentAnd first greater_than_five (holding JNull)
     = {| completion := Normal (JBoolean false);
          final := holding JNull; calls := [] |}
  /\ calls (isPresentAnd first rethrow (holding (JNumber 6))) = [JNumber 6].
Proof.
  split; [|split].
  - apply (isPresentAnd_true_iff_present_and_predicate first greater_than_five
             (holding (JNumber 6))).
    split; reflexivity.
  - apply (isPresentAnd_true_iff_present_and_predicate first greater_than_five
             (holding JNull)).
    reflexivity.
  - apply (isPresentAnd_true_iff_present_and_predicate first rethrow
             (holding (JNumber 6))).
    reflexivity.
Defined.

(** ** The exception *)

(** C2: [get()] throws exactly when the instance is empty, and what it throws
    is a [NoSuchElementException], a kind of its own among thrown values; on a
    present instance it returns the stored value.  No other method has a
    [throw] of its own: the constructor, [isPresent], [isEmpty], [orElse] and
    [ifPresentAsync] always return, and when [ifPresent] or [isPresentAnd]
    completes with a [throw], it is the one the supplied function made. *)
Theorem get_throws_NoSuchElementException_iff_empty :
  (forall this w,
      let r := get this w in
      final r = w /\ calls r = [] /\
      (nullish (field_value w this) = true <->
       completion r = Throw (ThrownNoSuchElement (new_NoSuchElementException None))) /\
      (nullish (field_value w this) = false <->
       completion r = Normal (field_value w this)) /\
      (forall e, completion r = Throw e ->
                 instanceof_NoSuchElementException e = true))
  /\ (forall msg,
         name (new_NoSuchElementException msg) = "NoSuchElementException" /\
         message (new_NoSuchElementException msg) = msg /\
         instanceof_NoSuchElementException
           (ThrownNoSuchElement (new_NoSuchElementException msg)) = true /\
         forall v, instanceof_NoSuchElementException (ThrownOther v) = false)
  /\ (forall value w, completion (of_ value w) = Normal (fresh_loc w))
  /\ (forall this op w e,
         op <> OpGet ->
         completion (call_method this op w) = Throw e ->
         exists func,
           (op = OpIfPresent func \/ op = OpIsPresentAnd func) /\
           nullish (field_value w this) = false /\
           calls (call_method this op w) = [field_value w this] /\
           fst (func (field_value w this) w) = Throw e).
Proof.
  split; [|split; [|split]].
  - intros this w r. unfold r. rewrite get_run; simpl.
    split; [reflexivity|]. split; [reflexivity|].
    destruct (nullish (field_value w this)); repeat split; try done.
    by intros e [= <-].
  - intros msg. repeat split.
  - intros value w. by rewrite of_run.
  - intros this op w e Hop.
    destruct op as [| | |value|func|predicate|func]; unfold call_method;
      [done | unfold bind; by rewrite isPresent_run
      | unfold bind; by rewrite isEmpty_run
      | unfold bind; by rewrite orElse_run | | | ].
    + rewrite ifPresent_run.
      destruct (nullish (field_value w this)); simpl; [done|].
      destruct (fst (func (field_value w this) w)) as [x|e'] eqn:Hf; [done|].
      intros [= <-]. exists func. by repeat split; try left.
    + rewrite isPresentAnd_run.
      destruct (nullish (field_value w this)); simpl; [done|].
      intros Hf. exists predicate. by repeat split; try right.
    + pose proof (ifPresentAsync_run this func w) as Hrun; simpl in Hrun.
      rewrite Hrun. by destruct (nullish (field_value w this)).
Qed.

Lemma get_throws_NoSuchElementException_iff_empty_witness :
  exists func,
    (OpIfPresent rethrow = OpIfPresent func \/
     OpIfPresent rethrow = OpIsPresentAnd func) /\
    fst (func (JNumber 6) (holding (JNumber 6)))
    = Throw (ThrownOther (JNumber 6)).
Proof.
  destruct get_throws_NoSuchElementException_iff_empty as (_ & _ & _ & Hother).
  destruct (Hother first (OpIfPresent rethrow)
              (holding (JNumber 6)) (ThrownOther (JNumber 6)))
    as (func & Hop & _ & _ & Hthrow); [discriminate | reflexivity |].
  exists func. split; [exact Hop | exact Hthrow].
Defined.

(** ** Stored values over time *)

Lemma stored_field_value w o v : stored w o = Some v -> field_value w o = v.
Proof.
  unfold stored, field_value.
  destruct (heap w !! o) as [[]|]; congruence.
Qed.

Lemma stored_enqueue jobs w o : stored (enqueue jobs w) o = stored w o.
Proof. reflexivity. Qed.

(** Writing a promise where no [Optional] lives changes no stored value. *)
Lemma stored_insert_promise p st w o :
  stored w p = None ->
  stored (set_heap (<[p := PromiseObject st]> (heap w)) w) o = stored w o.
Proof.
  intros Hp. unfold stored in *; simpl.
  destruct (decide (p = o)) as [->|Hne].
  - by rewrite lookup_insert_eq, Hp.
  - by rewrite lookup_insert_ne.
Qed.

Lemma promise_state_not_stored w p st :
  promise_state w p = Some st -> stored w p = None.
Proof.
  unfold promise_state, stored.
  destruct (heap w !! p) as [[]|]; congruence.
Qed.

Lemma stored_settle_promise p s w o :
  stored (settle_promise p s w) o = stored w o.
Proof.
  unfold settle_promise.
  destruct (promise_state w p) as [[ws|s']|] eqn:Hp; try reflexivity.
  rewrite stored_enqueue.
  eapply stored_insert_promise, promise_state_not_stored, Hp.
Qed.

Lemma stored_suspend_on awaited fr w o :
  stored (suspend_on awaited fr w) o = stored w o.
Proof.
  unfold suspend_on.
  destruct awaited as [| | | | |q]; try reflexivity.
  destruct (promise_state w q) as [[ws|s']|] eqn:Hq; try reflexivity.
  eapply stored_insert_promise, promise_state_not_stored, Hq.
Qed.

Lemma stored_run_microtask w o : stored (run_microtask w) o = stored w o.
Proof.
  unfold run_microtask.
  destruct (microtasks w) as [|job rest]; [reflexivity|].
  unfold run_job. by rewrite stored_settle_promise.
Qed.

Lemma stored_fresh_loc w : stored w (fresh_loc w) = None.
Proof. unfold stored. by rewrite fresh_loc_unused. Qed.

Lemma stored_written this value w o :
  stored (set_heap (<[this := OptionalObject value]> (heap w)) w) o
  = if decide (this = o) then Some value else stored w o.
Proof.
  unfold stored; simpl. case_decide as Heq.
  - subst. by rewrite lookup_insert_eq.
  - by rewrite lookup_insert_ne.
Qed.

(** Any change a method call makes to a stored value is [orElse] filling its
    empty receiver, or the doing of the function the caller supplied. *)
Lemma call_method_writes this op w o :
  let r := call_method this op w in
  stored (final r) o = stored w o
  \/ (exists d, op = OpOrElse d /\ o = this /\
                nullish (field_value w this) = true /\
                stored (final r) o = Some d)
  \/ (exists func w0,
         supplied_function op = Some func /\
         nullish (field_value w this) = false /\
         calls r = [field_value w this] /\
         stored w0 o = stored w o /\
         stored (final r) o = stored (snd (func (field_value w this) w0)) o).
Proof.
  intros r.
  destruct op as [| | |value|func|predicate|func]; unfold call_method in r.
  - left. unfold r. by rewrite get_run.
  - left. unfold r, bind. by rewrite isPresent_run.
  - left. unfold r, bind. by rewrite isEmpty_run.
  - assert (Hr : final r = final (orElse this value w)).
    { unfold r, bind. by rewrite orElse_run. }
    rewrite Hr, orElse_run; simpl.
    destruct (nullish (field_value w this)) eqn:Hn; [|by left].
    rewrite stored_written. case_decide as Heq; [|by left].
    right; left. by exists value.
  - unfold r. rewrite ifPresent_run.
    destruct (nullish (field_value w this)) eqn:Hn; [by left|].
    right; right. by exists func, w.
  - unfold r. rewrite isPresentAnd_run.
    destruct (nullish (field_value w this)) eqn:Hn; [by left|].
    right; right. by exists predicate, w.
  - pose proof (ifPresentAsync_run this func w) as Hrun; simpl in Hrun.
    unfold r. rewrite Hrun.
    destruct (nullish (field_value w this)) eqn:Hn; simpl.
    + left. apply stored_insert_promise, stored_fresh_loc.
    + right; right.
      exists func, (set_heap (<[fresh_loc w := PromiseObject (Pending [])]> (heap w)) w).
      repeat split; [apply stored_insert_promise, stored_fresh_loc|].
      destruct (fst (func _ _)); [apply stored_suspend_on | apply stored_settle_promise].
Qed.

Lemma run_step_keeps_present st w o v :
  step_respects_privacy st ->
  stored w o = Some v -> nullish v = false ->
  stored (run_step st w) o = Some v.
Proof.
  intros Hst Ho Hv. destruct st as [value|this op| |q s]; unfold run_step.
  - rewrite of_run; simpl. rewrite stored_written. case_decide as Heq; [|done].
    subst. by rewrite stored_fresh_loc in Ho.
  - destruct (call_method_writes this op w o) as [H|[H|H]].
    + by rewrite H.
    + destruct H as (d & _ & -> & Hn & _).
      rewrite (stored_field_value _ _ _ Ho) in Hn. congruence.
    + destruct H as (func & w0 & Hf & _ & _ & Hw0 & ->).
      simpl in Hst. rewrite Hf in Hst. apply Hst; [congruence | done].
  - by rewrite stored_run_microtask.
  - by rewrite stored_settle_promise.
Qed.

Lemma run_script_keeps_present script w o v :
  Forall step_respects_privacy script ->
  stored w o = Some v -> nullish v = false ->
  stored (run_script script w) o = Some v.
Proof.
  intros Hscript. revert w.
  induction Hscript as [|st script Hst _ IH]; intros w Ho Hv; simpl; [done|].
  apply IH; [|done]. by apply run_step_keeps_present.
Qed.

(** A supplied function that itself only builds instances, calls their
    methods and lets microtasks run respects the privacy of [_value]. *)
Lemma script_respects_privacy script (result : JsValue -> Completion JsValue) :
  Forall step_respects_privacy script ->
  respects_privacy (fun arg w => (result arg, run_script script w)).
Proof. intros Hscript arg w o v Ho Hv. by apply run_script_keeps_present. Qed.

Lemma log_each_respects_privacy : respects_privacy log_each.
Proof.
  intros arg w o v Ho Hv. unfold log_each.
  destruct arg as [| | | | |a]; try done.
  destruct (heap w !! a) as [[]|]; try done.
  destruct (heap w !! console) as [[| |out]|] eqn:Hc; try done.
  unfold stored in *; simpl.
  rewrite lookup_insert_ne; [done|]. intros <-. by rewrite Hc in Ho.
Qed.

(** C4: a stored value changes during a method call only when [orElse] fills
    its empty receiver, or by the doing of the function the caller supplied;
    and as long as supplied functions respect the privacy of [_value], an
    instance that holds a present value holds that same value after any
    sequence of constructions, method calls ([get], [isPresent], [isEmpty],
    [orElse], [ifPresent], [isPresentAnd], [ifPresentAsync]), microtask
    turns and settlements of promises. *)
Theorem present_value_is_never_cleared :
  (forall this op w o,
      let r := call_method this op w in
      stored (final r) o = stored w o
      \/ (exists d, op = OpOrElse d /\ o = this /\
                    nullish (field_value w this) = true /\
                    stored (final r) o = Some d)
      \/ (exists func w0,
             supplied_function op = Some func /\
             nullish (field_value w this) = false /\
             calls r = [field_value w this] /\
             stored w0 o = stored w o /\
             stored (final r) o = stored (snd (func (field_value w this) w0)) o))
  /\ (forall script w o v,
         Forall step_respects_privacy script ->
         stored w o = Some v -> nullish v = false ->
         stored (run_script script w) o = Some v /\
         completion (isPresent o (run_script script w)) = Normal true).
Proof.
  split; [exact call_method_writes|].
  intros script w o v Hscript Ho Hv.
  pose proof (run_script_keeps_present script w o v Hscript Ho Hv) as Hafter.
  split; [done|].
  by rewrite isPresent_run, (stored_field_value _ _ _ Hafter), Hv.
Qed.

Lemma present_value_is_never_cleared_witness :
  stored (run_script busy_script colorList_world) colorList = Some (JObject colors).
Proof.
  destruct present_value_is_never_cleared as [_ Hkeeps].
  apply (Hkeeps busy_script colorList_world colorList (JObject colors)).
  - repeat constructor; apply log_each_respects_privacy.
  - reflexivity.
  - reflexivity.
Defined.

(** ** The asynchronous variant *)

Lemma promise_state_insert p q o w :
  promise_state (set_heap (<[q := o]> (heap w)) w) p =
  if decide (q = p)
  then match o with PromiseObject st => Some st | _ => None end
  else promise_state w p.
Proof.
  unfold promise_state; simpl. case_decide as Heq.
  - subst. by rewrite lookup_insert_eq.
  - by rewrite lookup_insert_ne.
Qed.

Lemma settle_promise_pending p s w waiters :
  promise_state w p = Some (Pending waiters) ->
  settle_promise p s w =
  enqueue (map (fun fr => (fr, s)) waiters)
          (set_heap (<[p := PromiseObject (Settled s)]> (heap w)) w).
Proof. intros H. unfold settle_promise. by rewrite H. Qed.

Lemma settle_promise_not_pending p s w :
  (forall waiters, promise_state w p <> Some (Pending waiters)) ->
  settle_promise p s w = w.
Proof.
  intros H. unfold settle_promise.
  destruct (promise_state w p) as [[ws|s']|]; try done. by destruct (H ws).
Qed.

(** Settling [r] leaves every other promise as it was. *)
Lemma settle_promise_other p r s w :
  r <> p -> promise_state (settle_promise r s w) p = promise_state w p.
Proof.
  intros Hne. unfold settle_promise.
  destruct (promise_state w r) as [[ws|s']|]; try done.
  unfold enqueue, promise_state; simpl. by rewrite lookup_insert_ne.
Qed.

(** A promise pending after a settlement was pending before, with the same
    waiters, and is not the one settled. *)
Lemma settle_promise_still_pending r s w q waiters :
  promise_state (settle_promise r s w) q = Some (Pending waiters) ->
  promise_state w q = Some (Pending waiters).
Proof.
  unfold settle_promise.
  destruct (promise_state w r) as [[ws|s']|] eqn:Hr; try done.
  unfold enqueue, promise_state; simpl.
  destruct (decide (r = q)) as [->|Hne].
  - by rewrite lookup_insert_eq.
  - by rewrite lookup_insert_ne.
Qed.

(** The jobs a settlement adds go to the back of the queue; each resumes a
    waiter of the settled promise with its settlement. *)
Lemma settle_promise_queue r s w :
  exists extra,
    microtasks (settle_promise r s w) = microtasks w ++ extra /\
    forall job, job ∈ extra ->
      snd job = s /\
      promise_state (settle_promise r s w) r = Some (Settled s) /\
      exists waiters, promise_state w r = Some (Pending waiters) /\ fst job ∈ waiters.
Proof.
  unfold settle_promise.
  destruct (promise_state w r) as [[ws|s']|] eqn:Hr;
    try (exists []; rewrite app_nil_r; split; [done|]; by intros job ?%elem_of_nil).
  exists (map (fun fr => (fr, s)) ws). split; [done|].
  intros job [fr [-> Hfr]]%list_elem_of_fmap. simpl.
  split; [done|]. split; [|by exists ws].
  unfold enqueue, promise_state; simpl. by rewrite lookup_insert_eq.
Qed.

(** Once an awaited value has come out, no settlement changes how. *)
Lemma awaited_settlement_stable r s' w awaited s :
  awaited_settlement w awaited = Some s ->
  awaited_settlement (settle_promise r s' w) awaited = Some s.
Proof.
  destruct awaited as [| | | | |q]; try done.
  unfold awaited_settlement. intros H.
  destruct (decide (r = q)) as [->|Hne]; [|by rewrite settle_promise_other].
  destruct (promise_state w q) as [[ws|s0]|] eqn:Hq; [done| |];
    by rewrite settle_promise_not_pending, Hq by (intros ?; congruence).
Qed.

Lemma follows_settle_other p awaited r s' w :
  r <> p -> follows p awaited w -> follows p awaited (settle_promise r s' w).
Proof.
  intros Hne. unfold follows. rewrite settle_promise_other by done.
  destruct (promise_state w p) as [[wsp|sp]|] eqn:Hp; [| |done].
  - intros [Hjobs Hwaiters]. split.
    + destruct (settle_promise_queue r s' w) as (extra & -> & Hextra).
      intros job [Hold|Hnew]%elem_of_app Hjob.
      * by apply awaited_settlement_stable, Hjobs.
      * destruct (Hextra job Hnew) as (-> & Hsettled & ws & Hr & Hfr).
        rewrite (Hwaiters r ws (fst job) Hr Hfr Hjob).
        unfold awaited_settlement. by rewrite Hsettled.
    + intros q ws fr Hq. apply Hwaiters.
      by eapply settle_promise_still_pending.
  - intros (s & Hs & ->). exists s. split; [|done].
    by apply awaited_settlement_stable.
Qed.

Lemma follows_run_microtask p awaited w :
  follows p awaited w -> follows p awaited (run_microtask w).
Proof.
  unfold run_microtask.
  destruct (microtasks w) as [|[fr sj] rest] eqn:Hqueue; [done|].
  set (popped := {| heap := heap w; microtasks := rest |}).
  intros Hw. unfold run_job; simpl.
  assert (Hpopped : follows p awaited popped).
  { unfold follows in *. change (promise_state popped p) with (promise_state w p).
    destruct (promise_state w p) as [[wsp|sp]|]; [|done|done].
    destruct Hw as [Hjobs Hwaiters]. split; [|exact Hwaiters].
    intros job Hjob. apply Hjobs. rewrite Hqueue. by right. }
  destruct (decide (frame_result fr = p)) as [Hfr|Hfr];
    [|by apply follows_settle_other].
  destruct (promise_state w p) as [[wsp|sp]|] eqn:Hp.
  - assert (Hsj : awaited_settlement w awaited = Some sj).
    { unfold follows in Hw. rewrite Hp in Hw. destruct Hw as [Hjobs _].
      apply (Hjobs (fr, sj)); [rewrite Hqueue; by left | done]. }
    unfold follows.
    destruct (settle_promise_queue (frame_result fr) (after_await sj) popped)
      as (extra & _ & _).
    rewrite Hfr.
    assert (Hsettled : promise_state (settle_promise p (after_await sj) popped) p
                       = Some (Settled (after_await sj))).
    { rewrite (settle_promise_pending p _ popped wsp) by done.
      unfold enqueue, promise_state; simpl. by rewrite lookup_insert_eq. }
    rewrite Hsettled. exists sj. split; [|done].
    by apply (awaited_settlement_stable p (after_await sj) popped).
  - rewrite settle_promise_not_pending; [done|].
    rewrite Hfr. change (promise_state popped p) with (promise_state w p).
    intros ?; congruence.
  - rewrite settle_promise_not_pending; [done|].
    rewrite Hfr. change (promise_state popped p) with (promise_state w p).
    intros ?; congruence.
Qed.

Lemma follows_host_script p awaited script :
  Forall (host_step p) script ->
  forall w, follows p awaited w -> follows p awaited (run_script script w).
Proof.
  induction 1 as [|st script Hst _ IH]; intros w Hw; simpl; [done|].
  apply IH. destruct st as [value|this op| |q s]; simpl in *; try done.
  - by apply follows_run_microtask.
  - by apply follows_settle_other.
Qed.

Lemma suspend_on_settled awaited fr w s :
  awaited_settlement w awaited = Some s ->
  suspend_on awaited fr w = enqueue [(fr, s)] w.
Proof.
  destruct awaited as [| | | | |q]; simpl; try by intros [= <-].
  by destruct (promise_state w q) as [[ws|s0]|]; intros [= <-].
Qed.

Lemma suspend_on_pending q waiters fr w :
  promise_state w q = Some (Pending waiters) ->
  suspend_on (JObject q) fr w =
  set_heap (<[q := PromiseObject (Pending (waiters ++ [fr]))]> (heap w)) w.
Proof. intros H. simpl. by rewrite H. Qed.

Lemma awaited_settlement_pending w awaited :
  awaited_settlement w awaited = None ->
  exists q waiters, awaited = JObject q /\ promise_state w q = Some (Pending waiters).
Proof.
  destruct awaited as [| | | | |q]; simpl; try done.
  destruct (promise_state w q) as [[ws|s0]|] eqn:Hq; try done.
  intros _. by exists q, ws.
Qed.

(** Suspending leaves the result promise pending and makes it follow the
    awaited value. *)
Lemma suspend_on_follows p awaited w1 :
  unaware_of p (Normal awaited) w1 ->
  promise_state (suspend_on awaited {| frame_result := p |} w1) p = Some (Pending [])
  /\ follows p awaited (suspend_on awaited {| frame_result := p |} w1).
Proof.
  intros (Hp & [Hjobs Hwaiters] & Hne).
  destruct (awaited_settlement w1 awaited) as [s|] eqn:Hs.
  - rewrite (suspend_on_settled _ _ _ s Hs).
    split; [exact Hp|]. unfold follows.
    change (promise_state (enqueue _ w1) p) with (promise_state w1 p). rewrite Hp.
    split.
    + intros job [Hold|Hnew]%elem_of_app Hjob.
      * by destruct (Hjobs job Hold).
      * apply list_elem_of_singleton in Hnew as ->. exact Hs.
    + intros q ws fr Hq Hfr Hres. by destruct (Hwaiters q ws fr Hq Hfr).
  - destruct (awaited_settlement_pending _ _ Hs) as (q & ws & -> & Hq).
    assert (Hqp : q <> p) by congruence.
    rewrite (suspend_on_pending q ws _ w1 Hq).
    assert (Hp' : promise_state
                    (set_heap (<[q := PromiseObject (Pending (ws ++ [{| frame_result := p |}]))]>
                                 (heap w1)) w1) p = Some (Pending [])).
    { rewrite promise_state_insert. by case_decide. }
    split; [exact Hp'|]. unfold follows. rewrite Hp'. split.
    + intros job Hjob Hres. by destruct (Hjobs job Hjob).
    + intros q' ws' fr. rewrite promise_state_insert.
      case_decide as Heq; [by subst|].
      intros Hq' Hfr Hres. by destruct (Hwaiters q' ws' fr Hq' Hfr).
Qed.

(** A resumption queued behind [pre] runs in turn [length pre + 1], and
    settles its result promise if nothing else was set to. *)
Lemma parked_job_runs p s pre :
  forall post w,
    promise_state w p = Some (Pending []) ->
    microtasks w = pre ++ ({| frame_result := p |}, s) :: post ->
    (forall job, job ∈ pre -> frame_result (fst job) <> p) ->
    (forall q waiters fr,
        promise_state w q = Some (Pending waiters) -> fr ∈ waiters ->
        frame_result fr <> p) ->
    promise_state (run_microtasks (S (length pre)) w) p
    = Some (Settled (after_await s)).
Proof.
  induction pre as [|[fr sj] pre IH]; intros post w Hp Hqueue Hpre Hwaiters.
  - simpl. unfold run_microtask. rewrite Hqueue; simpl. unfold run_job; simpl.
    rewrite (settle_promise_pending p _ _ []) by done.
    unfold enqueue, promise_state; simpl. by rewrite lookup_insert_eq.
  - change (run_microtasks (S (length ((fr, sj) :: pre))) w)
      with (run_microtasks (S (length pre)) (run_microtask w)).
    unfold run_microtask. rewrite Hqueue; simpl. unfold run_job; simpl.
    set (popped := {| heap := heap w;
                      microtasks := pre ++ ({| frame_result := p |}, s) :: post |}).
    assert (Hfr : frame_result fr <> p) by (apply (Hpre (fr, sj)); by left).
    destruct (settle_promise_queue (frame_result fr) (after_await sj) popped)
      as (extra & Hextra & _).
    apply (IH (post ++ extra)).
    + by rewrite settle_promise_other.
    + rewrite Hextra; simpl. by rewrite <- app_assoc.
    + intros job Hjob. apply Hpre. by right.
    + intros q ws fr' Hq. apply (Hwaiters q ws fr').
      by apply settle_promise_still_pending in Hq.
Qed.

(** Once the promise the action returned is settled, the parked frame is
    resumed after the jobs queued before it and settles the result. *)
Lemma settled_action_settles_result p q waiters s w1 :
  unaware_of p (Normal (JObject q)) w1 ->
  promise_state w1 q = Some (Pending waiters) ->
  promise_state
    (run_microtasks (S (length (microtasks w1) + length waiters))
       (settle_promise q s (suspend_on (JObject q) {| frame_result := p |} w1))) p
  = Some (Settled (after_await s)).
Proof.
  intros (Hp & [Hjobs Hwaiters] & Hne) Hq.
  assert (Hqp : q <> p) by congruence.
  rewrite (suspend_on_pending q waiters _ w1 Hq).
  set (fr := {| frame_result := p |}).
  set (w' := set_heap (<[q := PromiseObject (Pending (waiters ++ [fr]))]> (heap w1)) w1).
  assert (Hq' : promise_state w' q = Some (Pending (waiters ++ [fr]))).
  { unfold w'. rewrite promise_state_insert. by case_decide. }
  rewrite (settle_promise_pending q s w' _ Hq').
  set (pre := microtasks w1 ++ map (fun fr => (fr, s)) waiters).
  replace (length (microtasks w1) + length waiters) with (length pre)
    by (unfold pre; by rewrite length_app, length_map).
  apply (parked_job_runs p s pre []).
  - change (promise_state (enqueue ?j ?w) p) with (promise_state w p).
    rewrite promise_state_insert. case_decide; [done|].
    unfold w'. rewrite promise_state_insert. by case_decide.
  - unfold enqueue, pre; simpl. by rewrite map_app, app_assoc.
  - intros job [Hold|[fr' [-> Hfr']]%list_elem_of_fmap]%elem_of_app.
    + by apply Hjobs.
    + by apply (Hwaiters q waiters).
  - intros q' ws' fr'.
    change (promise_state (enqueue ?j ?w) q') with (promise_state w q').
    rewrite promise_state_insert. case_decide; [done|].
    unfold w'. rewrite promise_state_insert. case_decide; [done|].
    apply Hwaiters.
Qed.

Lemma already_settled_action_settles_result p awaited s w1 :
  unaware_of p (Normal awaited) w1 ->
  awaited_settlement w1 awaited = Some s ->
  promise_state
    (run_microtasks (S (length (microtasks w1)))
       (suspend_on awaited {| frame_result := p |} w1)) p
  = Some (Settled (after_await s)).
Proof.
  intros (Hp & [Hjobs Hwaiters] & Hne) Hs.
  rewrite (suspend_on_settled _ _ _ s Hs).
  by apply (parked_job_runs p s (microtasks w1) []).
Qed.

(** C8: [ifPresentAsync(action)] always returns a promise.  On an empty
    instance it calls nothing and the promise is fulfilled on return.  On a
    present one it calls [action] once with the stored value.  With an
    [action] that has no reference to the promise being returned: if that
    call throws, the promise is rejected with what was thrown; otherwise the
    promise is pending on return, is settled only once what [action]
    returned has settled, whatever microtasks run and whatever the host
    settles meanwhile, and comes out fulfilled if that was fulfilled and
    rejected with the same reason if that was rejected, one microtask turn
    after the jobs queued before its resumption. *)
Theorem ifPresentAsync_awaits_action this func w :
  let v := field_value w this in
  let p := fresh_loc w in
  let wp := set_heap (<[p := PromiseObject (Pending [])]> (heap w)) w in
  let c := fst (func v wp) in
  let w1 := snd (func v wp) in
  let r := ifPresentAsync this func w in
  completion r = Normal (JObject p)
  /\ (nullish v = true ->
      calls r = [] /\
      final r = set_heap (<[p := PromiseObject (Settled (Fulfilled JUndefined))]>
                            (heap w)) w)
  /\ (nullish v = false ->
      calls r = [v] /\
      (unaware_of p c w1 ->
       (forall e, c = Throw e ->
                  promise_state (final r) p = Some (Settled (Rejected e)))
       /\ (forall awaited, c = Normal awaited ->
             promise_state (final r) p = Some (Pending [])
             /\ (forall script sp,
                    Forall (host_step p) script ->
                    promise_state (run_script script (final r)) p = Some (Settled sp) ->
                    exists s,
                      awaited_settlement (run_script script (final r)) awaited = Some s /\
                      sp = after_await s)
             /\ (forall s,
                    awaited_settlement w1 awaited = Some s ->
                    promise_state
                      (run_microtasks (S (length (microtasks w1))) (final r)) p
                    = Some (Settled (after_await s)))
             /\ (forall q waiters s,
                    awaited = JObject q ->
                    promise_state w1 q = Some (Pending waiters) ->
                    promise_state
                      (run_microtasks (S (length (microtasks w1) + length waiters))
                         (settle_promise q s (final r))) p
                    = Some (Settled (after_await s)))))).
Proof.
  intros v p wp c w1 r.
  pose proof (ifPresentAsync_run this func w) as Hrun; simpl in Hrun.
  fold p wp v in Hrun. fold c w1 in Hrun. fold r in Hrun.
  split; [rewrite Hrun; by destruct (nullish v)|].
  split; intros Hv; rewrite Hv in Hrun; rewrite Hrun; simpl; [done|].
  split; [done|]. intros Hunaware. split.
  - intros e He. rewrite He. destruct Hunaware as (Hp & _ & _).
    rewrite (settle_promise_pending p _ w1 []) by done.
    unfold enqueue, promise_state; simpl. by rewrite lookup_insert_eq.
  - intros awaited Hc. rewrite Hc in *.
    destruct (suspend_on_follows p awaited w1 Hunaware) as [Hpending Hfollows].
    split; [exact Hpending|]. split; [|split].
    + intros script sp Hscript Hsp.
      pose proof (follows_host_script p awaited script Hscript _ Hfollows) as Hafter.
      unfold follows in Hafter. by rewrite Hsp in Hafter.
    + intros s. by apply already_settled_action_settles_result.
    + intros q waiters s ->. by apply settled_action_settles_result.
Qed.

Lemma frames_avoid_empty_world p : frames_avoid p empty_world.
Proof.
  split.
  - by intros job ?%elem_of_nil.
  - intros q ws fr. unfold promise_state; simpl. by rewrite lookup_empty.
Qed.

Lemma frames_avoid_of p value w :
  frames_avoid p w -> frames_avoid p (final (of_ value w)).
Proof.
  intros [Hjobs Hwaiters]. rewrite of_run. split; [exact Hjobs|].
  intros q ws fr. simpl. rewrite promise_state_insert.
  case_decide; [done | apply Hwaiters].
Qed.

Lemma frames_avoid_new_promise p q w :
  frames_avoid p w ->
  frames_avoid p (set_heap (<[q := PromiseObject (Pending [])]> (heap w)) w).
Proof.
  intros [Hjobs Hwaiters]. split; [exact Hjobs|].
  intros q' ws fr. rewrite promise_state_insert. case_decide; [|apply Hwaiters].
  intros [= <-]. by intros ?%elem_of_nil.
Qed.

Lemma defer_unaware_of value p w0 :
  promise_state w0 p = Some (Pending []) ->
  frames_avoid p w0 ->
  unaware_of p (fst (defer value w0)) (snd (defer value w0)).
Proof.
  intros Hp Havoid. unfold defer, allocate; simpl.
  assert (Hne : fresh_loc w0 <> p).
  { intros Heq. unfold promise_state in Hp.
    by rewrite <- Heq, fresh_loc_unused in Hp. }
  split; [|split].
  - rewrite promise_state_insert. by case_decide.
  - by apply frames_avoid_new_promise.
  - congruence.
Qed.

Lemma ifPresentAsync_awaits_action_witness :
  completion (ifPresentAsync first defer (holding (JNumber 3)))
  = Normal (JObject 2%positive) /\
  calls (ifPresentAsync first defer (holding (JNumber 3))) = [JNumber 3] /\
  promise_state (final (ifPresentAsync first defer (holding (JNumber 3)))) 2%positive
  = Some (Pending []) /\
  promise_state
    (run_microtasks 1
       (settle_promise 3%positive (Rejected (ThrownOther (JString "boom")))
          (final (ifPresentAsync first defer (holding (JNumber 3)))))) 2%positive
  = Some (Settled (Rejected (ThrownOther (JString "boom")))).
Proof.
  destruct (ifPresentAsync_awaits_action first defer (holding (JNumber 3)))
    as (Hreturns & _ & Hpresent).
  destruct Hpresent as [Hcalls Hrest]; [reflexivity|].
  destruct Hrest as [_ Hawait].
  { apply defer_unaware_of.
    - rewrite promise_state_insert. by case_decide.
    - apply frames_avoid_new_promise, frames_avoid_of, frames_avoid_empty_world. }
  destruct (Hawait (JObject 3%positive) eq_refl) as (Hpending & _ & _ & Hsettle).
  split; [exact Hreturns|]. split; [exact Hcalls|]. split; [exact Hpending|].
  exact (Hsettle 3%positive [] (Rejected (ThrownOther (JString "boom")))
           eq_refl eq_refl).
Defined.

(** * Further properties *)

(** ** Construction *)

Lemma stored_of value w o :
  stored (final (of_ value w)) o
  = if decide (fresh_loc w = o) then Some value else stored w o.
Proof. rewrite of_run. apply stored_written. Qed.

(** X1: [of(a)] builds its instance at an address nothing lived at and
    touches nothing else; a second [of(b)] builds another one, and filling
    either with [orElse] leaves the other as it was. *)
Theorem of_builds_an_independent_instance a b w :
  let o1 := fresh_loc w in
  let w1 := final (of_ a w) in
  let o2 := fresh_loc w1 in
  let w2 := final (of_ b w1) in
  heap w !! o1 = None /\
  stored w1 o1 = Some a /\
  (forall o, o <> o1 -> heap w1 !! o = heap w !! o) /\
  microtasks w1 = microtasks w /\
  o2 <> o1 /\
  stored w2 o1 = Some a /\
  stored w2 o2 = Some b /\
  (forall d, stored (final (orElse o1 d w2)) o2 = Some b) /\
  (forall d, stored (final (orElse o2 d w2)) o1 = Some a).
Proof.
  intros o1 w1 o2 w2.
  assert (H1 : stored w1 o1 = Some a).
  { unfold w1. rewrite stored_of. by case_decide. }
  assert (Hne : o2 <> o1).
  { intros Heq. pose proof (stored_fresh_loc w1) as Hfresh.
    fold o2 in Hfresh. rewrite Heq in Hfresh. congruence. }
  assert (H21 : stored w2 o1 = Some a).
  { unfold w2. rewrite stored_of. by case_decide. }
  assert (H22 : stored w2 o2 = Some b).
  { unfold w2. rewrite stored_of. by case_decide. }
  split; [apply fresh_loc_unused|]. split; [exact H1|].
  split; [|split; [by unfold w1; rewrite of_run|]].
  { intros o Ho. unfold w1. rewrite of_run; simpl. by rewrite lookup_insert_ne. }
  split; [exact Hne|]. split; [exact H21|]. split; [exact H22|].
  split; intros d.
  - destruct (nullish (field_value w2 o1)) eqn:Hn.
    + rewrite orElse_final_empty, stored_written by done. by case_decide.
    + by rewrite orElse_final_present.
  - destruct (nullish (field_value w2 o2)) eqn:Hn.
    + rewrite orElse_final_empty, stored_written by done. by case_decide.
    + by rewrite orElse_final_present.
Qed.

(** ** Default substitution, continued *)

(** X2: [orElse] changes nothing but the field of its receiver: every other
    object and the microtask queue are as they were, and called on an
    instance it creates no object. *)
Theorem orElse_touches_only_its_receiver this d w :
  let r := orElse this d w in
  (forall o, o <> this -> heap (final r) !! o = heap w !! o) /\
  microtasks (final r) = microtasks w /\
  (forall v, stored w this = Some v ->
             dom (heap (final r)) = dom (heap w) /\
             fresh_loc (final r) = fresh_loc w).
Proof.
  intros r. unfold r. rewrite orElse_run; simpl.
  destruct (nullish (field_value w this)); simpl.
  - split; [|split; [done|]].
    + intros o Ho. by rewrite lookup_insert_ne.
    + intros v Hv.
      assert (Hdom : dom (<[this := OptionalObject d]> (heap w)) = dom (heap w)).
      { apply dom_insert_lookup_L. unfold stored in Hv.
        destruct (heap w !! this); [by eexists | done]. }
      split; [exact Hdom|]. unfold fresh_loc; simpl. by rewrite Hdom.
  - by repeat split.
Qed.

Lemma orElse_touches_only_its_receiver_witness :
  dom (heap (final (orElse first (JString "x") (holding JNull))))
  = dom (heap (holding JNull))
  /\ fresh_loc (final (orElse first (JString "x") (holding JNull)))
     = fresh_loc (holding JNull).
Proof.
  destruct (orElse_touches_only_its_receiver first (JString "x") (holding JNull))
    as (_ & _ & Hdom).
  apply (Hdom JNull). reflexivity.
Defined.

(** X3: after [orElse(a)] the instance holds what it held if that was
    present, and [a] otherwise, so it is present exactly when it was or [a]
    is; chaining [orElse(a).orElse(b)], the first present one of the old
    value, [a] and [b] stays, and lacking any, [b]. *)
Theorem orElse_first_present_value_wins this a b w :
  let old := field_value w this in
  let r := (let! o := orElse this a in orElse o b) w in
  field_value (final (orElse this a w)) this = (if nullish old then a else old) /\
  completion (isPresent this (final (orElse this a w)))
  = Normal (negb (nullish old) || negb (nullish a)) /\
  completion r = Normal this /\
  calls r = [] /\
  field_value (final r) this
  = (if nullish old then if nullish a then b else a else old).
Proof.
  intros old r.
  assert (H1 : field_value (final (orElse this a w)) this
               = if nullish old then a else old).
  { rewrite orElse_run; simpl. fold old.
    destruct (nullish old); [apply field_value_written | done]. }
  split; [exact H1|].
  split; [rewrite isPresent_run, H1; by destruct (nullish old) eqn:Ho; rewrite ?Ho|].
  unfold r. rewrite orElse_then.
  rewrite (orElse_run this b (final (orElse this a w))), H1; simpl.
  split; [done|]. split; [done|].
  destruct (nullish old) eqn:Ho.
  - destruct (nullish a) eqn:Ha; [apply field_value_written | exact H1].
  - rewrite Ho. exact H1.
Qed.

(** ** Unwrapping, continued *)

(** X4: what [get()] returns is never [null] or [undefined]. *)
Theorem get_never_returns_null_or_undefined this w v :
  completion (get this w) = Normal v -> v <> JNull /\ v <> JUndefined.
Proof.
  rewrite get_run; simpl.
  destruct (nullish (field_value w this)) eqn:Hn; [done|].
  intros [= <-]. by apply nullish_spec.
Qed.

Lemma get_never_returns_null_or_undefined_witness :
  JNumber 0 <> JNull /\ JNumber 0 <> JUndefined.
Proof.
  apply (get_never_returns_null_or_undefined first (holding (JNumber 0))).
  reflexivity.
Defined.

(** X5: with a present default, [orElse(d).get()] never throws, on any
    receiver: it returns the stored value if there is one and [d] if not. *)
Theorem orElse_then_get_never_throws this d w :
  nullish d = false ->
  completion ((let! o := orElse this d in get o) w)
  = Normal (if nullish (field_value w this) then d else field_value w this).
Proof.
  intros Hd. rewrite orElse_then, get_run, orElse_run; simpl.
  destruct (nullish (field_value w this)) eqn:Hn.
  - by rewrite field_value_written, Hd.
  - by rewrite Hn.
Qed.

Lemma orElse_then_get_never_throws_witness :
  completion ((let! o := orElse first (JBoolean false) in get o) (holding JUndefined))
  = Normal (JBoolean false).
Proof.
  apply (orElse_then_get_never_throws first (JBoolean false) (holding JUndefined)).
  reflexivity.
Defined.

(** X7: an instance that holds another instance is present whatever the inner
    one holds, [null] included, and [get()] on it returns the inner instance
    itself, still holding what it held. *)
Theorem optional_of_an_optional_is_present v w :
  let inner := fresh_loc w in
  let r := (let! i := of_ v in
            let! outer := of_ (JObject i) in
            let! p := isPresent outer in
            let! x := get outer in
            ret (p, x)) w in
  completion r = Normal (true, JObject inner) /\
  calls r = [] /\
  stored (final r) inner = Some v.
Proof.
  intros inner r. unfold r. rewrite !of_then. unfold bind.
  rewrite isPresent_run. cbn [completion final calls].
  rewrite get_run. cbn [completion final calls ret].
  rewrite field_value_of. cbn [nullish negb app].
  split; [done|]. split; [done|].
  cbn [final]. rewrite !stored_of. fold inner.
  case_decide as Heq; [|by case_decide].
  pose proof (stored_fresh_loc (final (of_ v w))) as Hfresh.
  rewrite Heq, stored_of in Hfresh. by case_decide.
Qed.

(** ** Conditional execution, continued *)

(** X6: [isPresentAnd] hands back what [predicate] returned as it is, boolean
    or not, so its result is truthy exactly when the instance is present and
    the result of [predicate] is truthy. *)
Theorem isPresentAnd_result_is_not_coerced this predicate w x :
  fst (predicate (field_value w this) w) = Normal x ->
  let r := isPresentAnd this predicate w in
  completion r = Normal (if nullish (field_value w this) then JBoolean false else x) /\
  (forall res, completion r = Normal res ->
               truthy res = negb (nullish (field_value w this)) && truthy x).
Proof.
  intros Hx r. unfold r. rewrite isPresentAnd_run.
  destruct (nullish (field_value w this)); simpl.
  - split; [done|]. by intros res [= <-].
  - rewrite Hx. split; [done|]. by intros res [= <-].
Qed.

Lemma isPresentAnd_result_is_not_coerced_witness :
  completion (isPresentAnd first returns_argument (holding (JNumber 0)))
  = Normal (JNumber 0)
  /\ completion (isPresentAnd first returns_argument (holding (JString "a")))
     = Normal (JString "a").
Proof.
  split.
  - apply (isPresentAnd_result_is_not_coerced first returns_argument
             (holding (JNumber 0)) (JNumber 0)).
    reflexivity.
  - apply (isPresentAnd_result_is_not_coerced first returns_argument
             (holding (JString "a")) (JString "a")).
    reflexivity.
Defined.

(** X8: with the type guards of the test suite, [isPresentAnd(isStringValue)]
    is [true] exactly when a string is stored and
    [isPresentAnd(isNumberValue)] exactly when a number is, [0] and [NaN]
    included; both always return a boolean and change nothing. *)
Theorem isPresentAnd_type_guards this w :
  (completion (isPresentAnd this isStringValue w) = Normal (JBoolean true) <->
   exists s, field_value w this = JString s)
  /\ (completion (isPresentAnd this isNumberValue w) = Normal (JBoolean true) <->
      exists x, field_value w this = JNumber x)
  /\ (exists b, completion (isPresentAnd this isStringValue w) = Normal (JBoolean b))
  /\ (exists b, completion (isPresentAnd this isNumberValue w) = Normal (JBoolean b))
  /\ final (isPresentAnd this isStringValue w) = w
  /\ final (isPresentAnd this isNumberValue w) = w.
Proof.
  rewrite !isPresentAnd_run. unfold isStringValue, isNumberValue.
  destruct (field_value w this) as [| |b|x|s|l]; simpl;
    repeat split; eauto; try discriminate; by intros [? ?].
Qed.

(** X13: [ifPresent(f)] does what [isPresentAnd(f)] does and drops the result:
    the same calls, the same world afterwards, the same [throw] if there is
    one, and [undefined] in place of any value returned. *)
Theorem ifPresent_is_isPresentAnd_without_result this func w :
  calls (ifPresent this func w) = calls (isPresentAnd this func w) /\
  final (ifPresent this func w) = final (isPresentAnd this func w) /\
  completion (ifPresent this func w)
  = match completion (isPresentAnd this func w) with
    | Normal _ => Normal JUndefined
    | Throw e => Throw e
    end.
Proof.
  rewrite ifPresent_run, isPresentAnd_run.
  by destruct (nullish (field_value w this)).
Qed.

(** X9: the first [ifPresent] test, for any array and any console: called on
    an instance that holds an array, with the function that logs each
    element, [ifPresent] returns normally having appended the elements to the
    console in their order, and changed nothing else. *)
Theorem ifPresent_logs_each_element this a xs out w :
  stored w this = Some (JObject a) ->
  heap w !! a = Some (HostObject xs) ->
  heap w !! console = Some (HostObject out) ->
  let r := ifPresent this log_each w in
  completion r = Normal JUndefined /\
  calls r = [JObject a] /\
  heap (final r) !! console = Some (HostObject (out ++ xs)) /\
  (forall o, o <> console -> heap (final r) !! o = heap w !! o) /\
  microtasks (final r) = microtasks w.
Proof.
  intros Hthis Ha Hconsole r. unfold r. rewrite ifPresent_run.
  rewrite (stored_field_value _ _ _ Hthis); simpl.
  rewrite Ha, Hconsole; simpl.
  split; [done|]. split; [done|].
  split; [by rewrite lookup_insert_eq|]. split; [|done].
  intros o Ho. by rewrite lookup_insert_ne.
Qed.

Lemma ifPresent_logs_each_element_witness :
  heap (final (ifPresent colorList log_each colorList_world)) !! console
  = Some (HostObject ([] ++ [JString "blue"; JString "green"])).
Proof.
  apply (ifPresent_logs_each_element colorList colors
           [JString "blue"; JString "green"] [] colorList_world); reflexivity.
Defined.

(** ** Empty instances *)

(** X10: on an empty instance every method but [orElse] calls nothing, leaves
    the instance empty and every object that existed as it was, and returns
    normally, except [get], which throws. *)
Theorem empty_instance_is_inert this op w :
  nullish (field_value w this) = true ->
  (forall d, op <> OpOrElse d) ->
  let r := call_method this op w in
  calls r = [] /\
  nullish (field_value (final r) this) = true /\
  (forall o, o <> fresh_loc w -> heap (final r) !! o = heap w !! o) /\
  microtasks (final r) = microtasks w /\
  (op = OpGet ->
   completion r = Throw (ThrownNoSuchElement (new_NoSuchElementException None))) /\
  (op <> OpGet -> exists x, completion r = Normal x).
Proof.
  intros Hempty Hop r.
  destruct op as [| | |value|func|predicate|func]; unfold call_method in r.
  - unfold r. rewrite get_run, Hempty; simpl. by repeat split.
  - unfold r, bind. rewrite isPresent_run; simpl. repeat split; eauto; done.
  - unfold r, bind. rewrite isEmpty_run; simpl. repeat split; eauto; done.
  - by destruct (Hop value).
  - unfold r. rewrite ifPresent_run, Hempty; simpl. repeat split; eauto; done.
  - unfold r. rewrite isPresentAnd_run, Hempty; simpl. repeat split; eauto; done.
  - pose proof (ifPresentAsync_run this func w) as Hrun; simpl in Hrun.
    unfold r. rewrite Hrun, Hempty; simpl.
    split; [done|]. split; [|split; [|split; [done|split; [done|eauto]]]].
    + unfold field_value; simpl.
      destruct (decide (fresh_loc w = this)) as [<-|Hne].
      * by rewrite lookup_insert_eq.
      * rewrite lookup_insert_ne by done. exact Hempty.
    + intros o Ho. by rewrite lookup_insert_ne.
Qed.

Lemma empty_instance_is_inert_witness :
  calls (call_method first (OpIfPresent rethrow) (holding JNull)) = []
  /\ calls (call_method first (OpIfPresentAsync rethrow) (holding JUndefined)) = [].
Proof.
  split.
  - apply (empty_instance_is_inert first (OpIfPresent rethrow) (holding JNull));
      [reflexivity | discriminate].
  - apply (empty_instance_is_inert first (OpIfPresentAsync rethrow) (holding JUndefined));
      [reflexivity | discriminate].
Defined.

(** ** The asynchronous variant, continued *)

(** A settled promise stays as it is, whoever tries to settle it again. *)
Lemma settle_promise_settled_stays p s r s' w :
  promise_state w p = Some (Settled s) ->
  promise_state (settle_promise r s' w) p = Some (Settled s).
Proof.
  intros Hp. destruct (decide (r = p)) as [->|Hne].
  - rewrite settle_promise_not_pending; [done|]. intros ws; congruence.
  - by rewrite settle_promise_other.
Qed.

Lemma run_microtask_settled_stays p s w :
  promise_state w p = Some (Settled s) ->
  promise_state (run_microtask w) p = Some (Settled s).
Proof.
  intros Hp. unfold run_microtask.
  destruct (microtasks w) as [|job rest]; [done|].
  unfold run_job. by apply settle_promise_settled_stays.
Qed.

Lemma host_script_settled_stays p p' s script :
  Forall (host_step p') script ->
  forall w, promise_state w p = Some (Settled s) ->
            promise_state (run_script script w) p = Some (Settled s).
Proof.
  induction 1 as [|st script Hst _ IH]; intros w Hp; simpl; [done|].
  apply IH. destruct st as [value|this op| |q sq]; simpl in *; try done.
  - by apply run_microtask_settled_stays.
  - by apply settle_promise_settled_stays.
Qed.

(** X11: the promise of [ifPresentAsync] never carries a value.  Whatever
    microtasks run and whatever the host settles after the call, if the
    promise is settled it is fulfilled with [undefined], or rejected with
    what [action] threw or with the reason its promise was rejected with;
    what the promise of [action] is fulfilled with is dropped. *)
Theorem ifPresentAsync_result_is_void this func w script sp :
  let v := field_value w this in
  let p := fresh_loc w in
  let wp := set_heap (<[p := PromiseObject (Pending [])]> (heap w)) w in
  let c := fst (func v wp) in
  let w1 := snd (func v wp) in
  let r := ifPresentAsync this func w in
  (nullish v = false -> unaware_of p c w1) ->
  Forall (host_step p) script ->
  promise_state (run_script script (final r)) p = Some (Settled sp) ->
  sp = Fulfilled JUndefined
  \/ (exists e, sp = Rejected e /\ nullish v = false /\
                (c = Throw e \/
                 exists awaited,
                   c = Normal awaited /\
                   awaited_settlement (run_script script (final r)) awaited
                   = Some (Rejected e))).
Proof.
  intros v p wp c w1 r Hunaware Hscript Hsp.
  pose proof (ifPresentAsync_run this func w) as Hrun; simpl in Hrun.
  fold p wp v in Hrun. fold c w1 in Hrun. fold r in Hrun.
  destruct (nullish v) eqn:Hv.
  - left. rewrite Hrun in Hsp; simpl in Hsp.
    rewrite (host_script_settled_stays p p (Fulfilled JUndefined) script Hscript) in Hsp.
    + congruence.
    + rewrite promise_state_insert. by case_decide.
  - specialize (Hunaware eq_refl). rewrite Hrun in Hsp |- *; simpl in Hsp |- *.
    destruct c as [awaited|e] eqn:Hc.
    + destruct (suspend_on_follows p awaited w1 Hunaware) as [_ Hfollows].
      pose proof (follows_host_script p awaited script Hscript _ Hfollows) as Hafter.
      unfold follows in Hafter. rewrite Hsp in Hafter.
      destruct Hafter as (s & Hs & ->).
      destruct s as [x|e]; [by left|].
      right. exists e. split; [done|]. split; [done|]. right. by exists awaited.
    + right. exists e. split; [|split; [done | by left]].
      destruct Hunaware as (Hp & _ & _).
      rewrite (host_script_settled_stays p p (Rejected e) script Hscript) in Hsp.
      * congruence.
      * rewrite (settle_promise_pending p _ w1 []) by done.
        unfold enqueue, promise_state; simpl. by rewrite lookup_insert_eq.
Qed.

Lemma ifPresentAsync_result_is_void_witness :
  promise_state
    (run_script [Settle 3%positive (Fulfilled (JNumber 42)); Microtask]
       (final (ifPresentAsync first defer (holding (JNumber 3))))) 2%positive
  = Some (Settled (Fulfilled JUndefined))
  /\ (Fulfilled JUndefined = Fulfilled JUndefined
      \/ exists e, Fulfilled JUndefined = Rejected e).
Proof.
  split; [reflexivity|].
  destruct (ifPresentAsync_result_is_void first defer (holding (JNumber 3))
              [Settle 3%positive (Fulfilled (JNumber 42)); Microtask]
              (Fulfilled JUndefined)) as [Hvoid|(e & He & _)].
  - intros _. apply defer_unaware_of.
    + rewrite promise_state_insert. by case_decide.
    + apply frames_avoid_new_promise, frames_avoid_of, frames_avoid_empty_world.
  - repeat constructor. discriminate.
  - reflexivity.
  - by left.
  - right. by exists e.
Defined.



